(** * Hue wheel generator: colour conversion, hue mapping and rasterisation

    A shallow embedding of [hue-wheel.v1.0.4.js].

    The Numbers of the source are read in two ways.

    - At the top level they are exact rationals ([Q]): every operation is
      performed without rounding error.  Statements quantified over all
      inputs are made of this reading.
    - In module [F64] they are IEEE 754 binary64 values, the arithmetic
      the program runs with.  It is used to run the program on concrete
      inputs.

    Integers produced by [Math.floor] and [Math.ceil] are [Z] in the exact
    reading.  The pixel array of the image is a list of bytes, written
    through stdpp's list insert. *)

From Stdlib Require Import ZArith QArith Qround Qabs Qminmax Lia Lqa.
From Stdlib Require Import Uint63 PrimFloat FloatOps SpecFloat.
From stdpp Require Import list list_numbers.

(** ** JavaScript numeric operators *)

(** Truncation toward zero, the integer quotient behind the [%] operator. *)
Definition Qtrunc (q : Q) : Z :=
  if Qle_bool 0 q then Qfloor q else Qceiling q.

(** [a % b]: the remainder takes the sign of the dividend. *)
Definition js_rem (a b : Q) : Q :=
  (a - b * inject_Z (Qtrunc (a / b)))%Q.

(** [Math.max(a, b, c)] and [Math.min(a, b, c)]. *)
Definition max3 (a b c : Q) : Q := Qmax (Qmax a b) c.
Definition min3 (a b c : Q) : Q := Qmin (Qmin a b) c.

(** ** Colour converter *)

Definition roundUp (num at_ : Q) : Z :=
  let add_on := ((10 - at_) * (1 # 10))%Q in
  if Qle_bool (inject_Z (Qceiling num)) (num + add_on)
  then Qceiling num
  else Qfloor num.

(** The [switch] on [Math.floor(intermediate_hue)]. *)
Definition sector_rgb (sector : Z) (chroma intermediate_value : Q) : Q * Q * Q :=
  match sector with
  | 0%Z => (chroma, intermediate_value, 0%Q)
  | 1%Z => (intermediate_value, chroma, 0%Q)
  | 2%Z => (0%Q, chroma, intermediate_value)
  | 3%Z => (0%Q, intermediate_value, chroma)
  | 4%Z => (intermediate_value, 0%Q, chroma)
  | 5%Z => (chroma, 0%Q, intermediate_value)
  | 6%Z => (chroma, 0%Q, intermediate_value)
  | _ => (0%Q, 0%Q, 0%Q)
  end.

Definition hsl2rgb (hue sat lig : Q) : Z * Z * Z :=
  let chroma := ((1 - Qabs (2 * lig - 1)) * sat)%Q in
  let intermediate_hue := (hue / 60)%Q in
  let intermediate_value :=
    (chroma * (1 - Qabs (js_rem intermediate_hue 2 - 1)))%Q in
  let add_on := (lig - chroma * (1 # 2))%Q in
  let '(ir, ig, ib) :=
    sector_rgb (Qfloor intermediate_hue) chroma intermediate_value in
  (Qfloor ((ir + add_on) * 255),
   Qfloor ((ig + add_on) * 255),
   Qfloor ((ib + add_on) * 255)).

(** The hue, saturation and lightness of [rgb2hsl] before they are rounded. *)
Definition rgb2hsl_hue (R G B : Z) : Q :=
  let r := (inject_Z R / 255)%Q in
  let g := (inject_Z G / 255)%Q in
  let b := (inject_Z B / 255)%Q in
  let MAX := max3 r g b in
  let MIN := min3 r g b in
  let hue :=
    if Qeq_bool MAX MIN then 0%Q
    else if Qeq_bool MAX r then (60 * (g - b) / (MAX - MIN))%Q
    else if Qeq_bool MAX g then (60 * (2 + (b - r) / (MAX - MIN)))%Q
    else (60 * (4 + (r - g) / (MAX - MIN)))%Q in
  if Qlt_le_dec hue 0 then (hue + 360)%Q else hue.

Definition rgb2hsl_lightness (R G B : Z) : Q :=
  let r := (inject_Z R / 255)%Q in
  let g := (inject_Z G / 255)%Q in
  let b := (inject_Z B / 255)%Q in
  ((max3 r g b + min3 r g b) * (1 # 2))%Q.

Definition rgb2hsl_saturation (R G B : Z) : Q :=
  let r := (inject_Z R / 255)%Q in
  let g := (inject_Z G / 255)%Q in
  let b := (inject_Z B / 255)%Q in
  let MAX := max3 r g b in
  let MIN := min3 r g b in
  let lightness := rgb2hsl_lightness R G B in
  if Qeq_bool MAX 0 || Qeq_bool MIN 1 then 0%Q
  else ((MAX - lightness) / Qmin lightness (1 - lightness))%Q.

Definition rgb2hsl (R G B : Z) : Q * Q * Q :=
  (inject_Z (roundUp (rgb2hsl_hue R G B) 5),
   (inject_Z (roundUp (rgb2hsl_saturation R G B * 100) 5) * (1 # 100))%Q,
   (inject_Z (roundUp (rgb2hsl_lightness R G B * 100) 5) * (1 # 100))%Q).

(** ** Hue mapper *)

(** [theta || 1]: zero is falsy. *)
Definition or_one (theta : Q) : Q :=
  if Qeq_bool theta 0 then 1%Q else theta.

(** [style] is [0] for red -> blue -> green -> red (clockwise) and [1] for
    red -> green -> blue -> red. *)
Definition getHue (redStart theta : Q) (style : Z) : Q :=
  let temp := or_one theta in
  let temp :=
    if Z.eqb style 0 then temp
    else js_rem (360 + 2 * redStart - temp) 360 in
  js_rem (360 + temp - redStart) 360.

(** ** Wheel rasteriser *)

(** The properties object received by [drawHueWheel] (without [canvasID]).
    Radii are whole numbers of CSS pixels. *)
Record WheelParams := {
  inner_radius : Z;
  thickness : Z;
  redStart : Q;
  style : Z;
  saturation : Q;
  lightness : Q;
  opacity : Z
}.

(** A store into the [Uint8ClampedArray] [pixels]: the value is clamped to
    a byte, and a store outside the array does nothing. *)
Definition clamp8 (v : Z) : Z := Z.max 0 (Z.min 255 v).

Definition store (pixels : list Z) (index v : Z) : list Z :=
  if (index <? 0)%Z then pixels
  else <[Z.to_nat index := clamp8 v]> pixels.


Definition pixel_index (outer_radius x y : Z) : Z :=
  let r_len := (2 * outer_radius)%Z in
  let adjusted_x := (x + outer_radius)%Z in
  let adjusted_y := (y + outer_radius)%Z in
  ((adjusted_y * r_len + adjusted_x) * 4)%Z.

(** The test of the [continue] statement. *)
Definition outside_ring (outer_radius inner_radius x y : Z) : bool :=
  let square_o := (outer_radius * outer_radius)%Z in
  let square_i := (inner_radius * inner_radius)%Z in
  let square_d := (x * x + y * y)%Z in
  (square_o <? square_d)%Z || (square_d <? square_i)%Z.

Section Rasteriser.

(** [atan2_deg a b] stands for [Math.atan2(a, b) * 360 / (2 * Math.PI)]. *)
Variable atan2_deg : Z -> Z -> Q.

(** The colour of the pixel at offset [(x, y)] from the wheel centre. *)
Definition pixel_rgb (p : WheelParams) (x y : Z) : Z * Z * Z :=
  let theta := js_rem (360 + atan2_deg (- y) x) 360 in
  let hue := getHue (redStart p) theta (style p) in
  hsl2rgb hue (saturation p) (lightness p).

(** One iteration of the inner loop. *)
Definition draw_pixel (p : WheelParams) (outer_radius inner_radius : Z)
    (pixels : list Z) (xy : Z * Z) : list Z :=
  let '(x, y) := xy in
  if outside_ring outer_radius inner_radius x y then pixels
  else
    let index := pixel_index outer_radius x y in
    let '(r, g, b) := pixel_rgb p x y in
    let pixels := store pixels (index + 0) r in
    let pixels := store pixels (index + 1) g in
    let pixels := store pixels (index + 2) b in
    store pixels (index + 3) (opacity p).

(** The two nested [for] loops over the square that contains the ring. *)
Definition render (p : WheelParams) (outer_radius inner_radius : Z)
    (pixels : list Z) : list Z :=
  foldl (fun pixels x =>
           foldl (fun pixels y =>
                    draw_pixel p outer_radius inner_radius pixels (x, y))
                 pixels (seqZ (- outer_radius) (2 * outer_radius)))
        pixels (seqZ (- outer_radius) (2 * outer_radius)).


(** The four bytes that a store of the pixel at [(x, y)] leaves in the
    array. *)
Definition pixel_bytes (p : WheelParams) (x y : Z) : list Z :=
  let '(r, g, b) := pixel_rgb p x y in
  [clamp8 r; clamp8 g; clamp8 b; clamp8 (opacity p)].

(** *** The stores of a render, as a trace *)

(** The stores [(index, value)] performed for one pixel, in program order. *)
Definition pixel_stores (p : WheelParams) (outer_radius inner_radius : Z)
    (xy : Z * Z) : list (Z * Z) :=
  let '(x, y) := xy in
  if outside_ring outer_radius inner_radius x y then []
  else
    let index := pixel_index outer_radius x y in
    let '(r, g, b) := pixel_rgb p x y in
    [((index + 0)%Z, r); ((index + 1)%Z, g); ((index + 2)%Z, b);
     ((index + 3)%Z, opacity p)].

(** The offsets visited by the loops, in iteration order. *)
Definition loop_offsets (outer_radius : Z) : list (Z * Z) :=
  x ← seqZ (- outer_radius) (2 * outer_radius);
  (fun y => (x, y)) <$> seqZ (- outer_radius) (2 * outer_radius).

Definition render_stores (p : WheelParams) (outer_radius inner_radius : Z)
    : list (Z * Z) :=
  xy ← loop_offsets outer_radius;
  pixel_stores p outer_radius inner_radius xy.

(** Rendering with the pixels visited in an arbitrary order. *)
Definition render_in_order (p : WheelParams) (outer_radius inner_radius : Z)
    (order : list (Z * Z)) (pixels : list Z) : list Z :=
  foldl (draw_pixel p outer_radius inner_radius) pixels order.

End Rasteriser.

(** Performing a trace of stores on an array. *)
Definition apply_stores (pixels : list Z) (stores : list (Z * Z)) : list Z :=
  foldl (fun pixels iv => store pixels iv.1 iv.2) pixels stores.

(** The trace has a store at [index]. *)
Definition stored_to (stores : list (Z * Z)) (index : Z) : Prop :=
  exists v : Z, (index, v) ∈ stores.

(** The offsets of the square image, and those of the ring. *)
Definition in_square (outer_radius x y : Z) : Prop :=
  (- outer_radius <= x < outer_radius)%Z /\
  (- outer_radius <= y < outer_radius)%Z.

Definition in_ring (outer_radius inner_radius x y : Z) : Prop :=
  (inner_radius * inner_radius <= x * x + y * y)%Z /\
  (x * x + y * y <= outer_radius * outer_radius)%Z.

(** A rational stand-in for [atan2] in degrees, exact on the axes and the
    diagonals; used to run the rasteriser on concrete inputs. *)
Definition atan2_octant (a b : Z) : Q :=
  match (a ?= 0)%Z, (b ?= 0)%Z with
  | Eq, Lt => 180
  | Eq, _ => 0
  | Gt, Eq => 90
  | Lt, Eq => -90
  | Gt, Gt => 45
  | Gt, Lt => 135
  | Lt, Gt => -45
  | Lt, Lt => -135
  end.

(** A wheel of inner radius 10 and thickness 5, with the defaults of
    [drawHueWheel] for the other properties. *)
Definition example_wheel : WheelParams :=
  {| inner_radius := 10; thickness := 5; redStart := 90; style := 0;
     saturation := 1; lightness := 1 # 2; opacity := 255 |}.

(** ** The program in binary64 arithmetic *)

Set Warnings "-inexact-float".

Module F64.

(** *** Operators *)

(** The value of a finite double; [None] for NaN and the infinities. *)
Definition to_Q (x : float) : option Q :=
  match Prim2SF x with
  | S754_zero _ => Some 0%Q
  | S754_finite s m e =>
      let n := if s then Zneg m else Zpos m in
      Some (match e with
            | Zneg k => n # (2 ^ k)
            | _ => inject_Z (n * 2 ^ e)
            end)
  | _ => None
  end.

(** The double of an integer of magnitude below 2^53. *)
Definition of_Z (z : Z) : float :=
  match z with
  | Z0 => 0%float
  | Zpos _ => of_uint63 (Uint63.of_Z z)
  | Zneg _ => (- of_uint63 (Uint63.of_Z (- z)))%float
  end.

(** [p] as an odd number times a power of two. *)
Fixpoint odd_part (p : positive) : positive * Z :=
  match p with
  | xO q => let '(m, j) := odd_part q in (m, (j + 1)%Z)
  | _ => (p, 0%Z)
  end.

(** The double of a non-zero rational [m * 2^j / 2^k] that has one. *)
Definition of_dyadic (q : Q) : float :=
  let '(m, j) := odd_part (Z.to_pos (Z.abs (Qnum q))) in
  let k := Z.log2 (Zpos (Qden q)) in
  let f := Z.ldexp (of_Z (Zpos m)) (j - k) in
  if (Qnum q <? 0)%Z then (- f)%float else f.

(** [Math.floor]: doubles from 2^52 on are integers already. *)
Definition floor (x : float) : float :=
  match to_Q x with
  | Some q =>
      if Qeq_bool q 0 || Qle_bool 4503599627370496 (Qabs q) then x
      else of_Z (Qfloor q)
  | None => x
  end.

(** [Math.ceil]. *)
Definition ceil (x : float) : float := (- floor (- x))%float.

(** [a % b]: the exact remainder, which is a double, with the sign of
    the dividend. *)
Definition rem (a b : float) : float :=
  match to_Q a, to_Q b with
  | Some qa, Some qb =>
      if Qeq_bool qb 0 then nan
      else if Qeq_bool qa 0 then a
      else
        let r := Qred (js_rem qa qb) in
        if Qeq_bool r 0 then (if (a <? 0)%float then neg_zero else zero)
        else of_dyadic r
  | Some _, None => if is_nan b then nan else a
  | None, _ => nan
  end.

(** [Math.max] and [Math.min] of two Numbers. *)
Definition max (a b : float) : float :=
  if is_nan a || is_nan b then nan
  else if (a <? b)%float then b
  else if (b <? a)%float then a
  else if get_sign a then b else a.

Definition min (a b : float) : float :=
  if is_nan a || is_nan b then nan
  else if (a <? b)%float then a
  else if (b <? a)%float then b
  else if get_sign a then a else b.

(** *** The four functions *)

Definition roundUp (num at_ : float) : float :=
  let add_on := ((10 - at_) * 0.1)%float in
  if (ceil num <=? num + add_on)%float then ceil num else floor num.

Definition sector_rgb (sector chroma intermediate_value : float)
    : float * float * float :=
  if (sector =? 0)%float then (chroma, intermediate_value, 0%float)
  else if (sector =? 1)%float then (intermediate_value, chroma, 0%float)
  else if (sector =? 2)%float then (0%float, chroma, intermediate_value)
  else if (sector =? 3)%float then (0%float, intermediate_value, chroma)
  else if (sector =? 4)%float then (intermediate_value, 0%float, chroma)
  else if (sector =? 5)%float then (chroma, 0%float, intermediate_value)
  else if (sector =? 6)%float then (chroma, 0%float, intermediate_value)
  else (0%float, 0%float, 0%float).

Definition hsl2rgb (hue sat lig : float) : float * float * float :=
  let chroma := ((1 - abs (2 * lig - 1)) * sat)%float in
  let intermediate_hue := (hue / 60)%float in
  let intermediate_value :=
    (chroma * (1 - abs (rem intermediate_hue 2 - 1)))%float in
  let add_on := (lig - chroma * 0.5)%float in
  let '(ir, ig, ib) :=
    sector_rgb (floor intermediate_hue) chroma intermediate_value in
  (floor ((ir + add_on) * 255), floor ((ig + add_on) * 255),
   floor ((ib + add_on) * 255)).

Definition rgb2hsl (R G B : float) : float * float * float :=
  let r := (R / 255)%float in
  let g := (G / 255)%float in
  let b := (B / 255)%float in
  let MAX := max (max r g) b in
  let MIN := min (min r g) b in
  let hue :=
    if (MAX =? MIN)%float then 0%float
    else if (MAX =? r)%float then (60 * (g - b) / (MAX - MIN))%float
    else if (MAX =? g)%float then (60 * (2 + (b - r) / (MAX - MIN)))%float
    else (60 * (4 + (r - g) / (MAX - MIN)))%float in
  let hue := if (hue <? 0)%float then (hue + 360)%float else hue in
  let lightness := ((MAX + MIN) * 0.5)%float in
  let saturation :=
    if (MAX =? 0)%float || (MIN =? 1)%float then 0%float
    else ((MAX - lightness) / min lightness (1 - lightness))%float in
  (roundUp hue 5, (roundUp (saturation * 100) 5 * 0.01)%float,
   (roundUp (lightness * 100) 5 * 0.01)%float).

Definition or_one (theta : float) : float :=
  if is_nan theta || (theta =? 0)%float then 1%float else theta.

Definition getHue (redStart theta : float) (style : Z) : float :=
  let temp := or_one theta in
  let temp :=
    if Z.eqb style 0 then temp
    else rem (360 + 2 * redStart - temp) 360 in
  rem (360 + temp - redStart) 360.

End F64.

(** ** The formula of the specification *)

(** The mathematical modulo: the result lies between 0 and the modulus. *)
Definition math_mod (a b : Q) : Q :=
  (a - b * inject_Z (Qfloor (a / b)))%Q.

(** The hue as the specification words it, with [mod] read as the
    mathematical modulo; [style] 1 is CW_RGB and any other is CW_RBG. *)
Definition getHue_formula (redStart theta : Q) (style : Z) : Q :=
  let t := if Qeq_bool theta 0 then 1%Q else theta in
  if Z.eqb style 1
  then math_mod (360 + math_mod (360 + 2 * redStart - t) 360 - redStart) 360
  else math_mod (360 + t - redStart) 360.

(** ** Quantisation of the converted colour *)


(** ** Monotonicity of the hue in the angle *)




(** * Properties *)

Section NumericOperators.
Local Open Scope Q_scope.

Lemma Qfloor_unique (q : Q) (k : Z) :
  inject_Z k <= q -> q < inject_Z (k + 1) -> Qfloor q = k.
Proof.
  intros Hlo Hhi.
  assert (H1 : (k <= Qfloor q)%Z).
  { rewrite <- (Qfloor_Z k). now apply Qfloor_resp_le. }
  assert (H2 : (Qfloor q < k + 1)%Z).
  { rewrite Zlt_Qlt. eapply Qle_lt_trans; [apply Qfloor_le | exact Hhi]. }
  lia.
Qed.

Lemma Qtrunc_nonneg (q : Q) : 0 <= q -> Qtrunc q = Qfloor q.
Proof.
  intros H. unfold Qtrunc.
  destruct (Qle_bool 0 q) eqn:E; [reflexivity |].
  apply Qle_bool_iff in H. congruence.
Qed.

Lemma Qdiv_nonneg (a b : Q) : 0 <= a -> 0 < b -> 0 <= a / b.
Proof.
  intros Ha Hb. apply Qle_shift_div_l; [exact Hb | lra].
Qed.

Lemma Qtrunc_comp (q q' : Q) : q == q' -> Qtrunc q = Qtrunc q'.
Proof.
  intros H. unfold Qtrunc.
  rewrite (Qleb_comp 0 0 (Qeq_refl 0) q q' H).
  rewrite (Qfloor_comp q q' H), (Qceiling_comp q q' H). reflexivity.
Qed.

#[global] Instance js_rem_comp : Proper (Qeq ==> Qeq ==> Qeq) js_rem.
Proof.
  intros a a' Ha b b' Hb. unfold js_rem.
  assert (Hq : a / b == a' / b') by (rewrite Ha, Hb; reflexivity).
  rewrite (Qtrunc_comp _ _ Hq), Ha, Hb. reflexivity.
Qed.

Lemma js_rem_floor (a b : Q) :
  0 <= a -> 0 < b -> js_rem a b == a - b * inject_Z (Qfloor (a / b)).
Proof.
  intros Ha Hb. unfold js_rem.
  rewrite Qtrunc_nonneg by now apply Qdiv_nonneg. reflexivity.
Qed.

(** For a dividend that is not negative, [%] is the mathematical modulo. *)
Lemma js_rem_math_mod (a b : Q) :
  0 <= a -> 0 < b -> js_rem a b == math_mod a b.
Proof. intros Ha Hb. unfold math_mod. now apply js_rem_floor. Qed.

Lemma math_mod_range (a b : Q) : 0 < b -> 0 <= math_mod a b < b.
Proof.
  intros Hb. unfold math_mod.
  pose proof (Qfloor_le (a / b)) as Hlo.
  pose proof (Qlt_floor (a / b)) as Hhi.
  rewrite inject_Z_plus in Hhi.
  set (n := inject_Z (Qfloor (a / b))) in *.
  assert (Hab : a == b * (a / b)) by (field; lra).
  assert (H1 : b * n <= b * (a / b)) by (apply Qmult_le_l; assumption).
  assert (H2 : b * (a / b) < b * (n + inject_Z 1))
    by (apply Qmult_lt_l; assumption).
  change (inject_Z 1) with 1 in H2.
  split; lra.
Qed.

Lemma js_rem_range (a b : Q) : 0 <= a -> 0 < b -> 0 <= js_rem a b < b.
Proof.
  intros Ha Hb. rewrite js_rem_math_mod by assumption.
  now apply math_mod_range.
Qed.




End NumericOperators.

Section HueMapper.
Local Open Scope Q_scope.


Lemma or_one_range (theta : Q) :
  0 <= theta <= 360 -> 0 < or_one theta <= 360.
Proof.
  intros H. unfold or_one.
  destruct (Qeq_bool theta 0) eqn:E; [lra |].
  apply Qeq_bool_neq in E. split; [| lra].
  destruct (Qlt_le_dec 0 theta) as [Hlt | Hle]; [exact Hlt |].
  exfalso. apply E. lra.
Qed.

Lemma floor_bracket (a b : Q) :
  0 < b ->
  inject_Z (Qfloor (a / b)) * b <= a /\
  a < inject_Z (Qfloor (a / b) + 1) * b.
Proof.
  intros Hb. pose proof (math_mod_range a b Hb) as H.
  unfold math_mod in H. rewrite inject_Z_plus.
  change (inject_Z 1) with 1. split; lra.
Qed.


Lemma getHue_style0 (redStart theta : Q) :
  getHue redStart theta 0 = js_rem (360 + or_one theta - redStart) 360.
Proof. reflexivity. Qed.

Lemma getHue_style_nonzero (redStart theta : Q) (style : Z) :
  style <> 0%Z ->
  getHue redStart theta style =
  js_rem (360 + js_rem (360 + 2 * redStart - or_one theta) 360 - redStart) 360.
Proof.
  intros H. unfold getHue.
  destruct (Z.eqb_spec style 0%Z) as [E | E]; [contradiction | reflexivity].
Qed.

(** X3.  On the documented range of its arguments, [redStart] and [theta]
    in [0, 360], the result is a hue of [0, 360), whatever the style. *)
Lemma getHue_range (redStart theta : Q) (style : Z) :
  0 <= redStart <= 360 -> 0 <= theta <= 360 ->
  0 <= getHue redStart theta style < 360.
Proof.
  intros Hr Ht. pose proof (or_one_range theta Ht) as Ho.
  destruct (Z.eq_dec style 0%Z) as [-> | Hs].
  - rewrite getHue_style0. apply js_rem_range; lra.
  - rewrite getHue_style_nonzero by assumption.
    assert (Hin : 0 <= js_rem (360 + 2 * redStart - or_one theta) 360 < 360)
      by (apply js_rem_range; lra).
    apply js_rem_range; lra.
Qed.


End HueMapper.

Section HueMapperClaims.
Local Open Scope Q_scope.

#[global] Instance math_mod_comp : Proper (Qeq ==> Qeq ==> Qeq) math_mod.
Proof.
  intros a a' Ha b b' Hb. unfold math_mod.
  assert (Hq : a / b == a' / b') by (rewrite Ha, Hb; reflexivity).
  rewrite (Qfloor_comp _ _ Hq), Ha, Hb. reflexivity.
Qed.

(** C1 (defect of the code).  [getHue] is documented to return a hue
    between 0 and 360, and adds 360 to each dividend to keep it positive.
    One turn is not enough once [redStart] exceeds [360 + theta]: the
    remainder of a negative dividend is negative, and
    [getHue(400, 10, 0)] is -30, outside [0, 360), in exact and in
    binary64 arithmetic alike. *)
Theorem getHue_negative_past_full_turn :
  getHue 400 10 0 == -30 /\
  ~ (0 <= getHue 400 10 0 /\ getHue 400 10 0 < 360) /\
  F64.getHue 400 10 0 = (-30)%float.
Proof.
  assert (E : getHue 400 10 0 == -30) by (vm_compute; reflexivity).
  split; [exact E | split; [| vm_compute; reflexivity]].
  rewrite E. intros [H _]. lra.
Qed.

(** The default configuration points red at 12 o'clock. *)
Lemma getHue_red_at_top : getHue 90 90 0 == 0.
Proof. vm_compute. reflexivity. Qed.

(** On the documented range of its arguments, [getHue] is the formula of
    the specification. *)
Lemma getHue_formula_agrees (redStart theta : Q) (style : Z) :
  0 <= redStart <= 360 -> 0 <= theta <= 360 ->
  style = 0%Z \/ style = 1%Z ->
  getHue redStart theta style == getHue_formula redStart theta style.
Proof.
  intros Hr Ht Hs. pose proof (or_one_range theta Ht) as Ho.
  unfold getHue_formula. fold (or_one theta).
  destruct Hs as [-> | ->].
  - rewrite getHue_style0. cbn [Z.eqb].
    apply js_rem_math_mod; lra.
  - rewrite getHue_style_nonzero by discriminate. cbn [Z.eqb Pos.eqb].
    assert (Hin : 0 <= js_rem (360 + 2 * redStart - or_one theta) 360 < 360)
      by (apply js_rem_range; lra).
    rewrite js_rem_math_mod by lra.
    rewrite (js_rem_math_mod (360 + 2 * redStart - or_one theta) 360) by lra.
    reflexivity.
Qed.

(** C5 (defect of the code, the one of C1).  For a dividend below zero
    the [%] of the source is not the modulo of the formula:
    [getHue(400, 10, 0)] is -30, in exact and in binary64 arithmetic, where
    the formula gives 330. *)
Theorem getHue_departs_from_formula :
  getHue 400 10 0 == -30 /\ getHue_formula 400 10 0 == 330 /\
  ~ getHue 400 10 0 == getHue_formula 400 10 0 /\
  F64.getHue 400 10 0 = (-30)%float.
Proof.
  assert (E1 : getHue 400 10 0 == -30) by (vm_compute; reflexivity).
  assert (E2 : getHue_formula 400 10 0 == 330) by (vm_compute; reflexivity).
  split; [exact E1 | split; [exact E2 | split; [| vm_compute; reflexivity]]].
  rewrite E1, E2. intros H. lra.
Qed.






End HueMapperClaims.

Section ColourConverter.
Local Open Scope Q_scope.

Lemma Qceiling_le_floor_succ (x : Q) : (Qceiling x <= Qfloor x + 1)%Z.
Proof.
  pose proof (Qceiling_lt x) as H1. pose proof (Qlt_floor x) as H2.
  assert (H : inject_Z (Qceiling x - 1) < inject_Z (Qfloor x + 1))
    by (eapply Qlt_trans; eassumption).
  rewrite <- Zlt_Qlt in H. lia.
Qed.

(** With the threshold 5 of its callers, [roundUp] rounds to the nearest
    integer, halves up. *)
Lemma roundUp_half_up (x : Q) : roundUp x 5 = Qfloor (x + (1 # 2)).
Proof.
  unfold roundUp. symmetry.
  destruct (Qle_bool (inject_Z (Qceiling x)) (x + (10 - 5) * (1 # 10))) eqn:E.
  - apply Qle_bool_iff in E. pose proof (Qle_ceiling x) as Hc.
    apply Qfloor_unique.
    + lra.
    + rewrite inject_Z_plus. change (inject_Z 1) with 1. lra.
  - assert (Hn : ~ inject_Z (Qceiling x) <= x + (10 - 5) * (1 # 10))
      by (rewrite <- Qle_bool_iff; congruence).
    pose proof (Qfloor_le x) as Hf.
    pose proof (Qceiling_le_floor_succ x) as Hs.
    rewrite Zle_Qle in Hs.
    apply Qfloor_unique; [lra | lra].
Qed.

Lemma roundUp_bounds (x at_ : Q) (lo hi : Z) :
  inject_Z lo <= x -> x <= inject_Z hi ->
  (lo <= roundUp x at_ <= hi)%Z.
Proof.
  intros Hlo Hhi.
  assert (H1 : (lo <= Qfloor x)%Z)
    by (rewrite <- (Qfloor_Z lo); now apply Qfloor_resp_le).
  assert (H2 : (Qceiling x <= hi)%Z)
    by (rewrite <- (Qceiling_Z hi); now apply Qceiling_resp_le).
  pose proof (Qle_floor_ceiling x) as H3. rewrite <- Zle_Qle in H3.
  unfold roundUp. destruct (Qle_bool _ _); lia.
Qed.

Lemma channel_unit (n : Z) :
  (0 <= n <= 255)%Z -> 0 <= inject_Z n / 255 <= 1.
Proof.
  intros [H0 H1]. rewrite Zle_Qle in H0, H1.
  change (inject_Z 0) with 0 in H0. change (inject_Z 255) with 255 in H1.
  split.
  - apply Qle_shift_div_l; lra.
  - apply Qle_shift_div_r; lra.
Qed.

Lemma max3_bounds (a b c : Q) :
  a <= max3 a b c /\ b <= max3 a b c /\ c <= max3 a b c.
Proof.
  unfold max3.
  pose proof (Q.le_max_l (Qmax a b) c). pose proof (Q.le_max_r (Qmax a b) c).
  pose proof (Q.le_max_l a b). pose proof (Q.le_max_r a b).
  repeat split; lra.
Qed.

Lemma min3_bounds (a b c : Q) :
  min3 a b c <= a /\ min3 a b c <= b /\ min3 a b c <= c.
Proof.
  unfold min3.
  pose proof (Q.le_min_l (Qmin a b) c). pose proof (Q.le_min_r (Qmin a b) c).
  pose proof (Q.le_min_l a b). pose proof (Q.le_min_r a b).
  repeat split; lra.
Qed.

Lemma max3_le (a b c u : Q) : a <= u -> b <= u -> c <= u -> max3 a b c <= u.
Proof. intros. unfold max3. repeat apply Q.max_lub; assumption. Qed.

Lemma min3_ge (a b c u : Q) : u <= a -> u <= b -> u <= c -> u <= min3 a b c.
Proof. intros. unfold min3. repeat apply Q.min_glb; assumption. Qed.

Lemma ratio_unit (n d : Q) : 0 < d -> - d <= n -> n <= d -> -1 <= n / d <= 1.
Proof.
  intros Hd Hlo Hhi. split.
  - apply Qle_shift_div_l; lra.
  - apply Qle_shift_div_r; lra.
Qed.

(** The hue before rounding is a hue. *)
Lemma rgb2hsl_hue_range (R G B : Z) :
  (0 <= R <= 255)%Z -> (0 <= G <= 255)%Z -> (0 <= B <= 255)%Z ->
  0 <= rgb2hsl_hue R G B < 360.
Proof.
  intros HR HG HB. unfold rgb2hsl_hue.
  pose proof (channel_unit R HR) as Hr.
  pose proof (channel_unit G HG) as Hg.
  pose proof (channel_unit B HB) as Hb.
  set (r := inject_Z R / 255) in *.
  set (g := inject_Z G / 255) in *.
  set (b := inject_Z B / 255) in *.
  destruct (max3_bounds r g b) as (M1 & M2 & M3).
  destruct (min3_bounds r g b) as (m1 & m2 & m3).
  set (MAX := max3 r g b) in *. set (MIN := min3 r g b) in *.
  destruct (Qeq_bool MAX MIN) eqn:E.
  { destruct (Qlt_le_dec 0 0); lra. }
  apply Qeq_bool_neq in E.
  assert (Hd : 0 < MAX - MIN).
  { destruct (Qlt_le_dec 0 (MAX - MIN)) as [H | H]; [exact H |].
    exfalso. apply E. lra. }
  destruct (Qeq_bool MAX r); [| destruct (Qeq_bool MAX g)].
  - assert (Hx : -1 <= (g - b) / (MAX - MIN) <= 1)
      by (apply ratio_unit; lra).
    assert (Ex : 60 * (g - b) / (MAX - MIN) == 60 * ((g - b) / (MAX - MIN)))
      by (field; lra).
    destruct (Qlt_le_dec _ 0); lra.
  - assert (Hx : -1 <= (b - r) / (MAX - MIN) <= 1)
      by (apply ratio_unit; lra).
    destruct (Qlt_le_dec _ 0); lra.
  - assert (Hx : -1 <= (r - g) / (MAX - MIN) <= 1)
      by (apply ratio_unit; lra).
    destruct (Qlt_le_dec _ 0); lra.
Qed.

Lemma rgb2hsl_lightness_range (R G B : Z) :
  (0 <= R <= 255)%Z -> (0 <= G <= 255)%Z -> (0 <= B <= 255)%Z ->
  0 <= rgb2hsl_lightness R G B <= 1.
Proof.
  intros HR HG HB. unfold rgb2hsl_lightness.
  pose proof (channel_unit R HR) as Hr.
  pose proof (channel_unit G HG) as Hg.
  pose proof (channel_unit B HB) as Hb.
  set (r := inject_Z R / 255) in *.
  set (g := inject_Z G / 255) in *.
  set (b := inject_Z B / 255) in *.
  destruct (max3_bounds r g b) as (M1 & M2 & M3).
  destruct (min3_bounds r g b) as (m1 & m2 & m3).
  assert (MAX1 : max3 r g b <= 1) by (apply max3_le; lra).
  assert (MIN0 : 0 <= min3 r g b) by (apply min3_ge; lra).
  lra.
Qed.

Lemma rgb2hsl_saturation_range (R G B : Z) :
  (0 <= R <= 255)%Z -> (0 <= G <= 255)%Z -> (0 <= B <= 255)%Z ->
  0 <= rgb2hsl_saturation R G B <= 1.
Proof.
  intros HR HG HB. unfold rgb2hsl_saturation, rgb2hsl_lightness.
  pose proof (channel_unit R HR) as Hr.
  pose proof (channel_unit G HG) as Hg.
  pose proof (channel_unit B HB) as Hb.
  set (r := inject_Z R / 255) in *.
  set (g := inject_Z G / 255) in *.
  set (b := inject_Z B / 255) in *.
  destruct (max3_bounds r g b) as (M1 & M2 & M3).
  destruct (min3_bounds r g b) as (m1 & m2 & m3).
  assert (MAX1 : max3 r g b <= 1) by (apply max3_le; lra).
  assert (MIN0 : 0 <= min3 r g b) by (apply min3_ge; lra).
  set (MAX := max3 r g b) in *. set (MIN := min3 r g b) in *.
  destruct (Qeq_bool MAX 0) eqn:E0; [cbn; lra |].
  destruct (Qeq_bool MIN 1) eqn:E1; [cbn; lra |].
  cbn [orb].
  apply Qeq_bool_neq in E0, E1.
  assert (Hmax : 0 < MAX).
  { destruct (Qlt_le_dec 0 MAX) as [H | H]; [exact H |].
    exfalso. apply E0. lra. }
  assert (Hmin : MIN < 1).
  { destruct (Qlt_le_dec MIN 1) as [H | H]; [exact H |].
    exfalso. apply E1. lra. }
  set (L := (MAX + MIN) * (1 # 2)).
  assert (Hden : 0 < Qmin L (1 - L)) by (apply Q.min_glb_lt; unfold L; lra).
  assert (Hnum : MAX - L <= Qmin L (1 - L))
    by (apply Q.min_glb; unfold L; lra).
  split.
  - apply Qle_shift_div_l; [exact Hden | unfold L; lra].
  - apply Qle_shift_div_r; [exact Hden | lra].
Qed.

End ColourConverter.

Section ColourConverterClaims.
Local Open Scope Q_scope.




(** C3 (as amended).  For channels in [0, 255], [rgb2hsl] returns a
    hue in [0, 360], 360 included, a saturation in [0, 1] and a
    lightness in [0, 1]. *)
Theorem rgb2hsl_range (R G B : Z) :
  (0 <= R <= 255)%Z -> (0 <= G <= 255)%Z -> (0 <= B <= 255)%Z ->
  let '(h, s, l) := rgb2hsl R G B in
  0 <= h <= 360 /\ 0 <= s <= 1 /\ 0 <= l <= 1.
Proof.
  intros HR HG HB. unfold rgb2hsl.
  pose proof (rgb2hsl_hue_range R G B HR HG HB) as Hh.
  pose proof (rgb2hsl_saturation_range R G B HR HG HB) as Hs.
  pose proof (rgb2hsl_lightness_range R G B HR HG HB) as Hl.
  assert (Bh : (0 <= roundUp (rgb2hsl_hue R G B) 5 <= 360)%Z).
  { apply roundUp_bounds.
    - change (inject_Z 0) with 0. lra.
    - change (inject_Z 360) with 360. lra. }
  assert (Bs : (0 <= roundUp (rgb2hsl_saturation R G B * 100) 5 <= 100)%Z).
  { apply roundUp_bounds.
    - change (inject_Z 0) with 0. lra.
    - change (inject_Z 100) with 100. lra. }
  assert (Bl : (0 <= roundUp (rgb2hsl_lightness R G B * 100) 5 <= 100)%Z).
  { apply roundUp_bounds.
    - change (inject_Z 0) with 0. lra.
    - change (inject_Z 100) with 100. lra. }
  rewrite !Zle_Qle in Bh, Bs, Bl.
  change (inject_Z 0) with 0 in *. change (inject_Z 360) with 360 in *.
  change (inject_Z 100) with 100 in *.
  repeat split; lra.
Qed.

Lemma rgb2hsl_range_witness :
  let '(h, s, l) := rgb2hsl 12 200 99 in
  0 <= h <= 360 /\ 0 <= s <= 1 /\ 0 <= l <= 1.
Proof. apply (rgb2hsl_range 12 200 99); lia. Defined.

(** C3 (as stated) fails: the hue of [rgb2hsl(255, 0, 1)], 359.76 before
    rounding, is rounded up to 360, outside [0, 360). *)
Lemma rgb2hsl_hue_reaches_360 :
  let '(h, s, l) := rgb2hsl 255 0 1 in
  h == 360 /\ ~ h < 360.
Proof.
  assert (E : rgb2hsl 255 0 1 =
              (inject_Z 360, inject_Z 100 * (1 # 100), inject_Z 50 * (1 # 100)))
    by (vm_compute; reflexivity).
  rewrite E. split; [reflexivity |]. intros H.
  change (inject_Z 360) with 360 in H. lra.
Qed.

(** Each component chosen by the [switch] is [chroma],
    [intermediate_value] or 0. *)
Lemma sector_rgb_cases (P : Q -> Prop) (sector : Z) (c iv : Q) :
  P c -> P iv -> P 0 ->
  let '(ir, ig, ib) := sector_rgb sector c iv in P ir /\ P ig /\ P ib.
Proof.
  intros Hc Hiv H0.
  destruct sector as [| p | p]; cbn; auto.
  destruct p as [[[p | p |] | [p | p |] |] | [[p | p |] | [p | p |] |] |];
    cbn; auto.
Qed.

Lemma Qfloor_255 (x : Q) : 0 <= x <= 1 -> (0 <= Qfloor (x * 255) <= 255)%Z.
Proof.
  intros Hx.
  assert (H0 : (Qfloor (inject_Z 0) <= Qfloor (x * 255))%Z)
    by (apply Qfloor_resp_le; change (inject_Z 0) with 0; lra).
  assert (H1 : (Qfloor (x * 255) <= Qfloor (inject_Z 255))%Z)
    by (apply Qfloor_resp_le; change (inject_Z 255) with 255; lra).
  rewrite Qfloor_Z in H0, H1. lia.
Qed.

Lemma Qfloor_eq_Z (x : Q) (k : Z) : x == inject_Z k -> Qfloor x = k.
Proof. intros H. rewrite (Qfloor_comp _ _ H). apply Qfloor_Z. Qed.

(** In exact arithmetic, for a hue in [0, 360] and a saturation and a
    lightness in [0, 1], the three channels returned by [hsl2rgb] are
    integers between 0 and 255. *)
Lemma hsl2rgb_exact_channels_in_byte_range (hue sat lig : Q) :
  0 <= hue <= 360 -> 0 <= sat <= 1 -> 0 <= lig <= 1 ->
  let '(r, g, b) := hsl2rgb hue sat lig in
  (0 <= r <= 255)%Z /\ (0 <= g <= 255)%Z /\ (0 <= b <= 255)%Z.
Proof.
  intros Hh Hs Hl. unfold hsl2rgb.
  set (w := Qabs (2 * lig - 1)).
  assert (Hw : 0 <= w <= 1 /\ 2 * lig - 1 <= w /\ - (2 * lig - 1) <= w).
  { unfold w. repeat split.
    - apply Qabs_nonneg.
    - apply Qabs_Qle_condition. lra.
    - apply Qle_Qabs.
    - rewrite <- Qabs_opp. apply Qle_Qabs. }
  set (c := (1 - w) * sat).
  assert (Hc : 0 <= c <= 1 - w).
  { unfold c. split.
    - apply Qmult_le_0_compat; lra.
    - rewrite <- (Qmult_1_r (1 - w)) at 2.
      apply Qmult_le_compat_nonneg; lra. }
  assert (Hrem : 0 <= js_rem (hue / 60) 2 < 2).
  { apply js_rem_range; [| lra]. apply Qdiv_nonneg; lra. }
  set (f := 1 - Qabs (js_rem (hue / 60) 2 - 1)).
  assert (Hf : 0 <= f <= 1).
  { unfold f.
    pose proof (Qabs_nonneg (js_rem (hue / 60) 2 - 1)) as H0.
    assert (H1 : Qabs (js_rem (hue / 60) 2 - 1) <= 1)
      by (apply Qabs_Qle_condition; lra).
    lra. }
  assert (Hiv : 0 <= c * f <= c).
  { split.
    - apply Qmult_le_0_compat; lra.
    - rewrite <- (Qmult_1_r c) at 2.
      apply Qmult_le_compat_nonneg; lra. }
  pose proof (sector_rgb_cases (fun x => 0 <= x <= c)
                (Qfloor (hue / 60)) c (c * f)) as Hsec.
  destruct (sector_rgb (Qfloor (hue / 60)) c (c * f)) as [[ir ig] ib].
  destruct Hsec as (Hir & Hig & Hib); [lra | lra | lra |].
  repeat split; apply Qfloor_255; lra.
Qed.

(** C4 (defect of the code).  [hsl2rgb] is documented to return channels
    between 0 and 255, and in exact arithmetic it does.  In binary64,
    at lightness 0.15 and saturation 1 the chroma is
    0.30000000000000004, so that [lig - chroma * 0.5] is -2^-55 and not 0,
    and the floor of the green and blue channels is -1:
    [hsl2rgb(0, 1, 0.15)] is [76, -1, -1], where C4 has [76, 0, 0]. *)
Theorem hsl2rgb_channel_below_zero :
  F64.hsl2rgb 0 1 0.15 = (76%float, (-1)%float, (-1)%float) /\
  hsl2rgb 0 1 (15 # 100) = (76, 0, 0)%Z.
Proof. split; vm_compute; reflexivity. Qed.

(** The pure colours of the tests of the specification, in binary64. *)
Lemma hsl2rgb_binary64_pure_colours :
  F64.hsl2rgb 0 1 0.5 = (255%float, 0%float, 0%float) /\
  F64.hsl2rgb 120 1 0.5 = (0%float, 255%float, 0%float) /\
  F64.hsl2rgb 240 1 0.5 = (0%float, 0%float, 255%float) /\
  F64.hsl2rgb 360 1 0.5 = (255%float, 0%float, 0%float).
Proof. repeat split; vm_compute; reflexivity. Qed.

(** In binary64 too, on samples, the hue 360 gives the triple of the hue 0,
    lightness 0 gives black and lightness 1 gives white. *)
Lemma hsl2rgb_binary64_samples :
  F64.hsl2rgb 360 0.3 0.7 = F64.hsl2rgb 0 0.3 0.7 /\
  F64.hsl2rgb 77 0.3 0 = (0%float, 0%float, 0%float) /\
  F64.hsl2rgb 77 0.3 1 = (255%float, 255%float, 255%float).
Proof. repeat split; vm_compute; reflexivity. Qed.

(** The inputs that refute C2 and C3 give the same results in binary64. *)
Lemma rgb2hsl_binary64_samples :
  F64.rgb2hsl 200 120 77 = (21%float, (53 * 0.01)%float, (54 * 0.01)%float) /\
  F64.rgb2hsl 255 0 1 = (360%float, 1%float, 0.5%float).
Proof. split; vm_compute; reflexivity. Qed.

(** C9.  A hue of exactly 360 gives the triple of the hue 0: in sector 6
    the intermediate value is 0, as it is in sector 0 at hue 0.  No bound
    on the saturation or the lightness is needed. *)
Theorem hsl2rgb_360_is_0 (sat lig : Q) :
  hsl2rgb 360 sat lig = hsl2rgb 0 sat lig.
Proof.
  unfold hsl2rgb.
  change (Qfloor (360 / 60)) with 6%Z. change (Qfloor (0 / 60)) with 0%Z.
  cbn [sector_rgb].
  set (c := (1 - Qabs (2 * lig - 1)) * sat).
  assert (E6 : c * (1 - Qabs (js_rem (360 / 60) 2 - 1)) == 0).
  { assert (E : Qabs (js_rem (360 / 60) 2 - 1) == 1)
      by (vm_compute; reflexivity).
    rewrite E. ring. }
  assert (E0 : c * (1 - Qabs (js_rem (0 / 60) 2 - 1)) == 0).
  { assert (E : Qabs (js_rem (0 / 60) 2 - 1) == 1)
      by (vm_compute; reflexivity).
    rewrite E. ring. }
  f_equal; [f_equal |]; apply Qfloor_comp.
  - rewrite E0. reflexivity.
  - rewrite E6. reflexivity.
Qed.

(** C10.  At lightness 0 the result is black and at lightness 1 it is
    white, for every hue and every saturation (in or out of range). *)
Theorem hsl2rgb_lightness_extremes (hue sat : Q) :
  hsl2rgb hue sat 0 = (0, 0, 0)%Z /\
  hsl2rgb hue sat 1 = (255, 255, 255)%Z.
Proof.
  assert (A0 : Qabs (2 * 0 - 1) == 1) by (vm_compute; reflexivity).
  assert (A1 : Qabs (2 * 1 - 1) == 1) by (vm_compute; reflexivity).
  split; unfold hsl2rgb.
  - set (c := (1 - Qabs (2 * 0 - 1)) * sat).
    assert (Ec : c == 0) by (unfold c; rewrite A0; ring).
    set (iv := c * (1 - Qabs (js_rem (hue / 60) 2 - 1))).
    assert (Eiv : iv == 0) by (unfold iv; rewrite Ec; ring).
    pose proof (sector_rgb_cases (fun x => x == 0)
                  (Qfloor (hue / 60)) c iv Ec Eiv (Qeq_refl 0)) as Hsec.
    destruct (sector_rgb (Qfloor (hue / 60)) c iv) as [[ir ig] ib].
    destruct Hsec as (Hir & Hig & Hib).
    f_equal; [f_equal |]; apply Qfloor_eq_Z.
    + rewrite Hir, Ec. reflexivity.
    + rewrite Hig, Ec. reflexivity.
    + rewrite Hib, Ec. reflexivity.
  - set (c := (1 - Qabs (2 * 1 - 1)) * sat).
    assert (Ec : c == 0) by (unfold c; rewrite A1; ring).
    set (iv := c * (1 - Qabs (js_rem (hue / 60) 2 - 1))).
    assert (Eiv : iv == 0) by (unfold iv; rewrite Ec; ring).
    pose proof (sector_rgb_cases (fun x => x == 0)
                  (Qfloor (hue / 60)) c iv Ec Eiv (Qeq_refl 0)) as Hsec.
    destruct (sector_rgb (Qfloor (hue / 60)) c iv) as [[ir ig] ib].
    destruct Hsec as (Hir & Hig & Hib).
    f_equal; [f_equal |]; apply Qfloor_eq_Z.
    + rewrite Hir, Ec. reflexivity.
    + rewrite Hig, Ec. reflexivity.
    + rewrite Hib, Ec. reflexivity.
Qed.

End ColourConverterClaims.

Section RasteriserStores.
Local Open Scope Z_scope.

Lemma store_length (pixels : list Z) (index v : Z) :
  length (store pixels index v) = length pixels.
Proof.
  unfold store. destruct (index <? 0); [reflexivity | apply length_insert].
Qed.

Lemma store_lookup (pixels : list Z) (index v : Z) (n : nat) :
  store pixels index v !! n =
  if decide (index = Z.of_nat n /\ (n < length pixels)%nat)
  then Some (clamp8 v) else pixels !! n.
Proof.
  unfold store. destruct (Z.ltb_spec index 0) as [Hneg | Hpos].
  - case_decide as H; [lia | reflexivity].
  - rewrite list_lookup_insert.
    repeat case_decide; try reflexivity; exfalso; lia.
Qed.

Lemma apply_stores_length (stores : list (Z * Z)) (pixels : list Z) :
  length (apply_stores pixels stores) = length pixels.
Proof.
  revert pixels. induction stores as [| [i v] stores IH]; intros pixels.
  - reflexivity.
  - cbn. unfold apply_stores in IH. rewrite IH. apply store_length.
Qed.

(** A byte that no store of the trace addresses keeps its value. *)
Lemma apply_stores_frame (stores : list (Z * Z)) (pixels : list Z) (n : nat) :
  ~ stored_to stores (Z.of_nat n) ->
  apply_stores pixels stores !! n = pixels !! n.
Proof.
  revert pixels. induction stores as [| [i v] stores IH]; intros pixels Hn.
  - reflexivity.
  - cbn. unfold apply_stores in IH. rewrite IH.
    + rewrite store_lookup. case_decide as H; [| reflexivity].
      exfalso. apply Hn. exists v. destruct H as [-> _]. left.
    + intros [w Hw]. apply Hn. exists w. now right.
Qed.

Lemma foldl_bind {A B C : Type} (f : A -> B -> A) (g : C -> list B)
    (l : list C) (a : A) :
  foldl f a (l ≫= g) = foldl (fun a c => foldl f a (g c)) a l.
Proof.
  revert a. induction l as [| c l IH]; intros a; [reflexivity |].
  rewrite bind_cons, foldl_app. cbn. apply IH.
Qed.

(** Two nested loops are one loop over the pairs of their indices. *)
Lemma foldl_nested {A B C : Type} (f : A -> B * C -> A)
    (xs : list B) (ys : list C) (a : A) :
  foldl f a (x ← xs; (fun y => (x, y)) <$> ys) =
  foldl (fun a x => foldl (fun a y => f a (x, y)) a ys) a xs.
Proof.
  rewrite foldl_bind. revert a.
  induction xs as [| x xs IH]; intros a; [reflexivity |].
  cbn. rewrite IH. f_equal. apply foldl_fmap.
Qed.

Lemma outside_ring_false (outer inner x y : Z) :
  outside_ring outer inner x y = false <-> in_ring outer inner x y.
Proof.
  unfold outside_ring, in_ring.
  rewrite orb_false_iff, !Z.ltb_ge. tauto.
Qed.

Lemma outside_ring_true (outer inner x y : Z) :
  outside_ring outer inner x y = true <-> ~ in_ring outer inner x y.
Proof.
  rewrite <- outside_ring_false. destruct (outside_ring outer inner x y).
  - split; [discriminate | reflexivity].
  - split; [discriminate | intros H; now destruct H].
Qed.

(** The four bytes of distinct pixels of the square do not overlap. *)
Lemma pixel_index_disjoint (outer x y x' y' n : Z) :
  in_square outer x y -> in_square outer x' y' ->
  pixel_index outer x y <= n < pixel_index outer x y + 4 ->
  pixel_index outer x' y' <= n < pixel_index outer x' y' + 4 ->
  x = x' /\ y = y'.
Proof.
  unfold in_square, pixel_index. intros [Hx Hy] [Hx' Hy'] Hn Hn'.
  set (w := 2 * outer) in *.
  assert (E : (y + outer) * w + (x + outer) = (y' + outer) * w + (x' + outer))
    by lia.
  assert (Ey : y = y').
  { destruct (Z.lt_trichotomy y y') as [H | [H | H]]; [| exact H |].
    - exfalso. assert ((y + outer + 1) * w <= (y' + outer) * w)
        by (apply Z.mul_le_mono_nonneg_r; lia). lia.
    - exfalso. assert ((y' + outer + 1) * w <= (y + outer) * w)
        by (apply Z.mul_le_mono_nonneg_r; lia). lia. }
  subst y'. split; [lia | reflexivity].
Qed.

Lemma pixel_index_nonneg (outer x y : Z) :
  in_square outer x y -> 0 <= pixel_index outer x y.
Proof.
  unfold in_square, pixel_index. intros [Hx Hy].
  assert (0 <= (y + outer) * (2 * outer)) by (apply Z.mul_nonneg_nonneg; lia).
  lia.
Qed.

Lemma pixel_index_bound (outer x y : Z) :
  in_square outer x y ->
  pixel_index outer x y + 4 <= 2 * outer * (2 * outer) * 4.
Proof.
  unfold in_square, pixel_index. intros [Hx Hy].
  assert ((y + outer + 1) * (2 * outer) <= 2 * outer * (2 * outer))
    by (apply Z.mul_le_mono_nonneg_r; lia).
  lia.
Qed.

Lemma elem_of_loop_offsets (outer x y : Z) :
  (x, y) ∈ loop_offsets outer <-> in_square outer x y.
Proof.
  unfold loop_offsets, in_square. rewrite list_elem_of_bind. split.
  - intros (x' & Hy & Hx). apply list_elem_of_fmap in Hy as (y' & E & Hy).
    injection E as -> ->. apply elem_of_seqZ in Hx, Hy. lia.
  - intros [Hx Hy]. exists x. split.
    + apply list_elem_of_fmap. exists y. split; [reflexivity |].
      apply elem_of_seqZ. lia.
    + apply elem_of_seqZ. lia.
Qed.

End RasteriserStores.

Section RasteriserProperties.
Local Open Scope Z_scope.

Variable atan2_deg : Z -> Z -> Q.
Variable p : WheelParams.
Variables outer inner : Z.

Local Abbreviation draw := (draw_pixel atan2_deg p outer inner).
Local Abbreviation stores := (pixel_stores atan2_deg p outer inner).

(** The loop body performs the stores of its trace. *)
Lemma draw_pixel_stores (pixels : list Z) (xy : Z * Z) :
  draw pixels xy = apply_stores pixels (stores xy).
Proof.
  unfold draw_pixel, pixel_stores. destruct xy as [x y].
  destruct (outside_ring outer inner x y); [reflexivity |].
  destruct (pixel_rgb atan2_deg p x y) as [[r g] b]. reflexivity.
Qed.

Lemma render_in_order_stores (order : list (Z * Z)) (pixels : list Z) :
  render_in_order atan2_deg p outer inner order pixels =
  apply_stores pixels (order ≫= stores).
Proof.
  unfold render_in_order, apply_stores. rewrite foldl_bind.
  revert pixels. induction order as [| xy order IH]; intros pixels.
  - reflexivity.
  - cbn. rewrite <- IH. f_equal. apply draw_pixel_stores.
Qed.

(** The nested loops visit the offsets of [loop_offsets] in order. *)
Lemma render_loop_offsets (pixels : list Z) :
  render atan2_deg p outer inner pixels =
  render_in_order atan2_deg p outer inner (loop_offsets outer) pixels.
Proof.
  unfold render, render_in_order, loop_offsets. symmetry.
  apply foldl_nested.
Qed.

Lemma render_stores_spec (pixels : list Z) :
  render atan2_deg p outer inner pixels =
  apply_stores pixels (render_stores atan2_deg p outer inner).
Proof. rewrite render_loop_offsets. apply render_in_order_stores. Qed.


(** The stores of one pixel address its four bytes, and only when the
    pixel is in the ring. *)
Lemma elem_of_pixel_stores (x y index v : Z) :
  (index, v) ∈ stores (x, y) ->
  in_ring outer inner x y /\
  pixel_index outer x y <= index < pixel_index outer x y + 4.
Proof.
  unfold pixel_stores.
  destruct (outside_ring outer inner x y) eqn:E.
  - intros H. now apply elem_of_nil in H.
  - apply outside_ring_false in E.
    destruct (pixel_rgb atan2_deg p x y) as [[r g] b].
    rewrite !elem_of_cons, elem_of_nil.
    intros [H | [H | [H | [H | []]]]]; injection H as -> _; split;
      try exact E; lia.
Qed.


(** What one iteration leaves in each byte of the array. *)
Lemma draw_pixel_lookup (pixels : list Z) (x y : Z) (n : nat) :
  0 <= pixel_index outer x y ->
  draw pixels (x, y) !! n =
  if decide (in_ring outer inner x y /\
             pixel_index outer x y <= Z.of_nat n < pixel_index outer x y + 4 /\
             (n < length pixels)%nat)
  then pixel_bytes atan2_deg p x y !! (n - Z.to_nat (pixel_index outer x y))%nat
  else pixels !! n.
Proof.
  intros Hidx. unfold draw_pixel, pixel_bytes.
  destruct (outside_ring outer inner x y) eqn:E.
  - apply outside_ring_true in E. case_decide as H; [tauto | reflexivity].
  - apply outside_ring_false in E.
    destruct (pixel_rgb atan2_deg p x y) as [[r g] b].
    set (idx := pixel_index outer x y) in *.
    rewrite !store_lookup, !store_length.
    repeat case_decide; try reflexivity; try (exfalso; lia);
      try (exfalso;
           match goal with
           | H : ~ (in_ring _ _ _ _ /\ _) |- _ =>
               apply H; split; [exact E | lia]
           end).
    + replace (n - Z.to_nat idx)%nat with 3%nat by lia. reflexivity.
    + replace (n - Z.to_nat idx)%nat with 2%nat by lia. reflexivity.
    + replace (n - Z.to_nat idx)%nat with 1%nat by lia. reflexivity.
    + replace (n - Z.to_nat idx)%nat with 0%nat by lia. reflexivity.
Qed.

Lemma draw_pixel_length (pixels : list Z) (xy : Z * Z) :
  length (draw pixels xy) = length pixels.
Proof. rewrite draw_pixel_stores. apply apply_stores_length. Qed.

(** Two iterations commute: they store to disjoint bytes, or they are
    the same iteration. *)
Lemma draw_pixel_comm (pixels : list Z) (q1 q2 : Z * Z) :
  in_square outer q1.1 q1.2 -> in_square outer q2.1 q2.2 ->
  draw (draw pixels q1) q2 = draw (draw pixels q2) q1.
Proof.
  destruct q1 as [x1 y1], q2 as [x2 y2]. cbn [fst snd]. intros H1 H2.
  destruct (decide ((x1, y1) = (x2, y2))) as [E | Hne]; [now rewrite E |].
  pose proof (pixel_index_nonneg _ _ _ H1) as Hi1.
  pose proof (pixel_index_nonneg _ _ _ H2) as Hi2.
  apply list_eq. intros n.
  rewrite !draw_pixel_lookup, !draw_pixel_length by assumption.
  repeat case_decide; try reflexivity.
  exfalso. apply Hne.
  destruct (pixel_index_disjoint outer x1 y1 x2 y2 (Z.of_nat n))
    as [-> ->]; tauto.
Qed.

Lemma render_in_order_permutation (order1 order2 : list (Z * Z))
    (pixels : list Z) :
  order1 ≡ₚ order2 ->
  Forall (fun q => in_square outer q.1 q.2) order1 ->
  render_in_order atan2_deg p outer inner order1 pixels =
  render_in_order atan2_deg p outer inner order2 pixels.
Proof.
  unfold render_in_order. intros Hperm. revert pixels.
  induction Hperm as [| q l1 l2 _ IH | q1 q2 l | l1 l2 l3 H12 IH12 _ IH23];
    intros pixels Hsq.
  - reflexivity.
  - cbn. apply IH. now inversion Hsq.
  - cbn. f_equal. inversion Hsq as [| ? ? Hq2 Hrest]; subst.
    inversion Hrest; subst. now apply draw_pixel_comm.
  - rewrite IH12 by assumption. apply IH23. now rewrite <- H12.
Qed.

Lemma loop_offsets_in_square :
  Forall (fun q => in_square outer q.1 q.2) (loop_offsets outer).
Proof.
  apply Forall_forall. intros [x y] H. now apply elem_of_loop_offsets.
Qed.

(** A pixel of the square outside the ring, or not visited at all, keeps
    its bytes whatever the other iterations do. *)
Lemma render_in_order_frame (order : list (Z * Z)) (pixels : list Z)
    (x y : Z) (n : nat) :
  Forall (fun q => in_square outer q.1 q.2) order ->
  in_square outer x y ->
  pixel_index outer x y <= Z.of_nat n < pixel_index outer x y + 4 ->
  ((x, y) ∈ order -> ~ in_ring outer inner x y) ->
  render_in_order atan2_deg p outer inner order pixels !! n = pixels !! n.
Proof.
  intros Hsq Hxy Hn Hout. rewrite render_in_order_stores.
  apply apply_stores_frame. intros [v Hv].
  apply list_elem_of_bind in Hv as ([x' y'] & Hv & Hq).
  apply elem_of_pixel_stores in Hv as [Hring Hidx].
  rewrite Forall_forall in Hsq. specialize (Hsq _ Hq). cbn in Hsq.
  destruct (pixel_index_disjoint outer x y x' y' (Z.of_nat n))
    as [-> ->]; try assumption.
  now apply Hout.
Qed.

(** A visited pixel of the ring ends with its own four bytes. *)
Lemma render_in_order_value (order : list (Z * Z)) (pixels : list Z)
    (x y : Z) (n : nat) :
  Forall (fun q => in_square outer q.1 q.2) order ->
  in_square outer x y -> in_ring outer inner x y ->
  (x, y) ∈ order ->
  pixel_index outer x y <= Z.of_nat n < pixel_index outer x y + 4 ->
  (n < length pixels)%nat ->
  render_in_order atan2_deg p outer inner order pixels !! n =
  pixel_bytes atan2_deg p x y !! (n - Z.to_nat (pixel_index outer x y))%nat.
Proof.
  intros Hsq Hxy Hring Hin Hn Hlen. revert pixels Hlen.
  induction order as [| q order IH]; intros pixels Hlen.
  - now apply elem_of_nil in Hin.
  - inversion Hsq as [| ? ? Hq Hrest]; subst.
    change (render_in_order atan2_deg p outer inner (q :: order) pixels)
      with (render_in_order atan2_deg p outer inner order (draw pixels q)).
    destruct (decide ((x, y) ∈ order)) as [Hmem | Hnot].
    + apply IH; try assumption. now rewrite draw_pixel_length.
    + apply elem_of_cons in Hin as [<- | Hin]; [| contradiction].
      rewrite (render_in_order_frame order _ x y n); try assumption;
        [| intros H; contradiction].
      rewrite draw_pixel_lookup by now apply pixel_index_nonneg.
      case_decide as H; [reflexivity | tauto].
Qed.

(** Every permutation of the iteration order gives the same array. *)
Lemma render_order_independent (order : list (Z * Z)) (pixels : list Z) :
  order ≡ₚ loop_offsets outer ->
  render_in_order atan2_deg p outer inner order pixels =
  render atan2_deg p outer inner pixels.
Proof.
  intros Hperm. rewrite render_loop_offsets. symmetry.
  apply render_in_order_permutation; [now symmetry |].
  apply loop_offsets_in_square.
Qed.

(** The bytes of each pixel of the square after a render. *)
Lemma render_lookup (pixels : list Z) (x y : Z) (k : nat) :
  in_square outer x y -> (k < 4)%nat ->
  2 * outer * (2 * outer) * 4 <= Z.of_nat (length pixels) ->
  render atan2_deg p outer inner pixels
    !! (Z.to_nat (pixel_index outer x y) + k)%nat =
  if outside_ring outer inner x y
  then pixels !! (Z.to_nat (pixel_index outer x y) + k)%nat
  else pixel_bytes atan2_deg p x y !! k.
Proof.
  intros Hsq Hk Hlen.
  pose proof (pixel_index_nonneg _ _ _ Hsq) as Hidx.
  pose proof (pixel_index_bound _ _ _ Hsq) as Hbound.
  rewrite render_loop_offsets.
  destruct (outside_ring outer inner x y) eqn:E.
  - apply outside_ring_true in E.
    apply (render_in_order_frame _ _ x y).
    + apply loop_offsets_in_square.
    + exact Hsq.
    + lia.
    + intros _. exact E.
  - apply outside_ring_false in E.
    rewrite (render_in_order_value _ _ x y).
    + f_equal. lia.
    + apply loop_offsets_in_square.
    + exact Hsq.
    + exact E.
    + now apply elem_of_loop_offsets.
    + lia.
    + lia.
Qed.

End RasteriserProperties.

Section RasteriserClaims.
Local Open Scope Z_scope.

Variable atan2_deg : Z -> Z -> Q.


(** C8.  The result of a render is a function of the configuration and
    the array, and it does not depend on the order in which the pixels
    are visited: every permutation of the iteration order gives the same
    array, byte for byte.  In the result, a pixel of the ring holds
    [pixel_bytes], computed from its own coordinates and the
    configuration alone, and any other pixel holds what it held. *)
Theorem render_deterministic (p : WheelParams) (outer inner : Z)
    (order : list (Z * Z)) (pixels : list Z) (x y : Z) (k : nat) :
  order ≡ₚ loop_offsets outer ->
  in_square outer x y -> (k < 4)%nat ->
  2 * outer * (2 * outer) * 4 <= Z.of_nat (length pixels) ->
  render_in_order atan2_deg p outer inner order pixels =
  render atan2_deg p outer inner pixels /\
  render atan2_deg p outer inner pixels
    !! (Z.to_nat (pixel_index outer x y) + k)%nat =
  if outside_ring outer inner x y
  then pixels !! (Z.to_nat (pixel_index outer x y) + k)%nat
  else pixel_bytes atan2_deg p x y !! k.
Proof.
  intros Hperm Hsq Hk Hlen. split.
  - now apply render_order_independent.
  - now apply render_lookup.
Qed.


End RasteriserClaims.

Section RasteriserWitnesses.
Local Open Scope Z_scope.


Lemma render_deterministic_witness :
  render_in_order atan2_octant example_wheel 2 1
    (reverse (loop_offsets 2)) (replicate 64 0) =
  render atan2_octant example_wheel 2 1 (replicate 64 0) /\
  render atan2_octant example_wheel 2 1 (replicate 64 0)
    !! (Z.to_nat (pixel_index 2 1 (-1)) + 2)%nat =
  if outside_ring 2 1 1 (-1)
  then replicate 64 0 !! (Z.to_nat (pixel_index 2 1 (-1)) + 2)%nat
  else pixel_bytes atan2_octant example_wheel 1 (-1) !! 2%nat.
Proof.
  apply (render_deterministic atan2_octant example_wheel 2 1
           (reverse (loop_offsets 2)) (replicate 64 0) 1 (-1) 2).
  - apply reverse_Permutation.
  - unfold in_square. lia.
  - lia.
  - vm_compute. discriminate.
Defined.

End RasteriserWitnesses.

(** * Further properties *)

Section HueMapperFurther.
Local Open Scope Q_scope.








Lemma getHue_style0_nonneg (redStart theta : Q) :
  redStart <= 360 + or_one theta ->
  0 <= getHue redStart theta 0 < 360.
Proof.
  intros H. rewrite getHue_style0. apply js_rem_range; lra.
Qed.





End HueMapperFurther.

Section ColourConverterFurther.
Local Open Scope Q_scope.




(** X9.  With the threshold 0, [roundUp] is the ceiling: an integer is
    returned as it is, and every other number goes up. *)
Theorem roundUp_threshold_zero (x : Q) : roundUp x 0 = Qceiling x.
Proof.
  unfold roundUp.
  destruct (Qle_bool (inject_Z (Qceiling x)) (x + (10 - 0) * (1 # 10))) eqn:E;
    [reflexivity |].
  exfalso.
  assert (Hn : ~ inject_Z (Qceiling x) <= x + (10 - 0) * (1 # 10))
    by (rewrite <- Qle_bool_iff; congruence).
  pose proof (Qceiling_lt x) as Hc.
  unfold Z.sub in Hc. rewrite inject_Z_plus, inject_Z_opp in Hc.
  change (inject_Z 1) with 1 in Hc.
  apply Hn. lra.
Qed.

Lemma roundUp_comp (x y at_ : Q) : x == y -> roundUp x at_ = roundUp y at_.
Proof.
  intros H. unfold roundUp.
  rewrite (Qceiling_comp _ _ H), (Qfloor_comp _ _ H).
  assert (E : x + (10 - at_) * (1 # 10) == y + (10 - at_) * (1 # 10))
    by (rewrite H; reflexivity).
  rewrite (Qleb_comp _ _ (Qeq_refl _) _ _ E). reflexivity.
Qed.





(** X12.  For a hue in [0, 360), a saturation that is not negative and a
    lightness in [0, 1], the channels are ordered by the sector of the hue:
    red is the largest in the first and the last sixth of the turn, green
    in the second and third, blue in the fourth and fifth, and the
    opposite channel is the smallest. *)
Theorem hsl2rgb_channel_order (hue sat lig : Q) :
  0 <= sat -> 0 <= lig <= 1 -> 0 <= hue < 360 ->
  let '(r, g, b) := hsl2rgb hue sat lig in
  (hue < 60 -> (b <= g <= r)%Z) /\
  (60 <= hue < 120 -> (b <= r <= g)%Z) /\
  (120 <= hue < 180 -> (r <= b <= g)%Z) /\
  (180 <= hue < 240 -> (r <= g <= b)%Z) /\
  (240 <= hue < 300 -> (g <= r <= b)%Z) /\
  (300 <= hue -> (g <= b <= r)%Z).
Proof.
  intros Hs Hl Hh. unfold hsl2rgb.
  set (w := Qabs (2 * lig - 1)).
  assert (Hw : w <= 1) by (apply Qabs_Qle_condition; lra).
  set (c := (1 - w) * sat).
  assert (Hc : 0 <= c) by (apply Qmult_le_0_compat; lra).
  assert (Hrem : 0 <= js_rem (hue / 60) 2 < 2).
  { apply js_rem_range; [| lra]. apply Qdiv_nonneg; lra. }
  set (f := 1 - Qabs (js_rem (hue / 60) 2 - 1)).
  assert (Hf : 0 <= f <= 1).
  { unfold f.
    pose proof (Qabs_nonneg (js_rem (hue / 60) 2 - 1)) as H0.
    assert (H1 : Qabs (js_rem (hue / 60) 2 - 1) <= 1)
      by (apply Qabs_Qle_condition; lra).
    lra. }
  assert (Hiv : 0 <= c * f <= c).
  { split.
    - apply Qmult_le_0_compat; lra.
    - rewrite <- (Qmult_1_r c) at 2.
      apply Qmult_le_compat_nonneg; lra. }
  set (iv := c * f) in *.
  set (add_on := lig - c * (1 # 2)).
  assert (H60 : 0 < 60) by lra.
  destruct (floor_bracket hue 60 H60) as [Hlo Hhi].
  set (k := Qfloor (hue / 60)) in *.
  rewrite inject_Z_plus in Hhi. change (inject_Z 1) with 1 in Hhi.
  assert (Hk0 : inject_Z (-1) < inject_Z k)
    by (change (inject_Z (-1)) with (-1); lra).
  assert (Hk6 : inject_Z k < inject_Z 6)
    by (change (inject_Z 6) with 6; lra).
  rewrite <- Zlt_Qlt in Hk0, Hk6.
  assert (Hk : (k = 0 \/ k = 1 \/ k = 2 \/ k = 3 \/ k = 4 \/ k = 5)%Z) by lia.
  destruct Hk as [E | [E | [E | [E | [E | E]]]]]; rewrite E in *;
    cbn [sector_rgb];
    [ change (inject_Z 0) with 0 in *
    | change (inject_Z 1) with 1 in *
    | change (inject_Z 2) with 2 in *
    | change (inject_Z 3) with 3 in *
    | change (inject_Z 4) with 4 in *
    | change (inject_Z 5) with 5 in * ];
    repeat split; intros; try (exfalso; lra);
      apply Qfloor_resp_le; lra.
Qed.

Lemma hsl2rgb_channel_order_witness :
  let '(r, g, b) := hsl2rgb 200 (3 # 4) (2 # 5) in
  (200 < 60 -> (b <= g <= r)%Z) /\
  (60 <= 200 < 120 -> (b <= r <= g)%Z) /\
  (120 <= 200 < 180 -> (r <= b <= g)%Z) /\
  (180 <= 200 < 240 -> (r <= g <= b)%Z) /\
  (240 <= 200 < 300 -> (g <= r <= b)%Z) /\
  (300 <= 200 -> (g <= b <= r)%Z).
Proof. apply (hsl2rgb_channel_order 200 (3 # 4) (2 # 5)); lra. Defined.

End ColourConverterFurther.

Section RgbToHslFurther.
Local Open Scope Q_scope.

Lemma max3_eq (a b c u : Q) :
  a <= u -> b <= u -> c <= u -> (u <= a \/ u <= b \/ u <= c) ->
  max3 a b c == u.
Proof.
  intros Ha Hb Hc Hu. destruct (max3_bounds a b c) as (M1 & M2 & M3).
  pose proof (max3_le a b c u Ha Hb Hc). apply Qle_antisym; [assumption |].
  destruct Hu as [H0 | [H0 | H0]]; lra.
Qed.

Lemma min3_eq (a b c u : Q) :
  u <= a -> u <= b -> u <= c -> (a <= u \/ b <= u \/ c <= u) ->
  min3 a b c == u.
Proof.
  intros Ha Hb Hc Hu. destruct (min3_bounds a b c) as (M1 & M2 & M3).
  pose proof (min3_ge a b c u Ha Hb Hc). apply Qle_antisym; [| assumption].
  destruct Hu as [H0 | [H0 | H0]]; lra.
Qed.

Lemma channel_lt (m n : Z) :
  (m < n)%Z -> inject_Z m / 255 < inject_Z n / 255.
Proof.
  intros H. rewrite Zlt_Qlt in H. unfold Qdiv.
  apply Qmult_lt_compat_r; [reflexivity | exact H].
Qed.

Lemma roundUp_Z (k : Z) (x : Q) : x == inject_Z k -> roundUp x 5 = k.
Proof.
  intros H. rewrite roundUp_half_up. apply Qfloor_unique.
  - lra.
  - rewrite inject_Z_plus. change (inject_Z 1) with 1. lra.
Qed.

(** The hue before rounding, from the largest and the smallest channel. *)
Lemma rgb2hsl_hue_cases (R G B : Z) (MAX MIN : Q) :
  max3 (inject_Z R / 255) (inject_Z G / 255) (inject_Z B / 255) == MAX ->
  min3 (inject_Z R / 255) (inject_Z G / 255) (inject_Z B / 255) == MIN ->
  MIN < MAX ->
  let r := inject_Z R / 255 in
  let g := inject_Z G / 255 in
  let b := inject_Z B / 255 in
  exists hue : Q,
    (rgb2hsl_hue R G B == hue \/ (hue < 0 /\ rgb2hsl_hue R G B == hue + 360)) /\
    ((MAX == r /\ hue == 60 * (g - b) / (MAX - MIN)) \/
     (~ MAX == r /\ MAX == g /\ hue == 60 * (2 + (b - r) / (MAX - MIN))) \/
     (~ MAX == r /\ ~ MAX == g /\ hue == 60 * (4 + (r - g) / (MAX - MIN)))).
Proof.
  intros HM Hm Hlt r g b. unfold rgb2hsl_hue. fold r g b.
  set (M := max3 r g b) in *. set (m := min3 r g b) in *.
  change (M == MAX) in HM. change (m == MIN) in Hm.
  assert (Ed : M - m == MAX - MIN) by lra.
  destruct (Qeq_bool M m) eqn:E.
  { apply Qeq_bool_eq in E. exfalso. lra. }
  assert (Hsplit : forall e : Q,
            (if Qlt_le_dec e 0 then e + 360 else e) == e \/
            (e < 0 /\ (if Qlt_le_dec e 0 then e + 360 else e) == e + 360)).
  { intros e. destruct (Qlt_le_dec e 0); [right | left].
    - split; [assumption | reflexivity].
    - reflexivity. }
  assert (HMr : forall c : Q, M == c <-> MAX == c).
  { intros c. split; intros H.
    - transitivity M; [symmetry; exact HM | exact H].
    - transitivity MAX; [exact HM | exact H]. }
  destruct (Qeq_bool M r) eqn:Er; [| destruct (Qeq_bool M g) eqn:Eg].
  - apply Qeq_bool_eq in Er. exists (60 * (g - b) / (M - m)).
    split; [apply Hsplit |].
    left. split; [now apply HMr |]. rewrite Ed. reflexivity.
  - apply Qeq_bool_neq in Er. apply Qeq_bool_eq in Eg.
    exists (60 * (2 + (b - r) / (M - m))). split; [apply Hsplit |].
    right. left. split; [| split].
    + intros H. apply Er. now apply HMr.
    + now apply HMr.
    + rewrite Ed. reflexivity.
  - apply Qeq_bool_neq in Er, Eg.
    exists (60 * (4 + (r - g) / (M - m))). split; [apply Hsplit |].
    right. right. split; [| split].
    + intros H. apply Er. now apply HMr.
    + intros H. apply Eg. now apply HMr.
    + rewrite Ed. reflexivity.
Qed.

End RgbToHslFurther.

Section RgbToHslProperties.
Local Open Scope Q_scope.

Lemma forallb_seqZ (f : Z -> bool) (lo len n : Z) :
  forallb f (seqZ lo len) = true -> (lo <= n < lo + len)%Z -> f n = true.
Proof.
  intros H Hn. rewrite forallb_forall in H. apply H.
  apply list_elem_of_In, elem_of_seqZ. exact Hn.
Qed.



Lemma rgb2hsl_hue_value (R G B k : Z) :
  rgb2hsl_hue R G B == inject_Z k ->
  let '(h, _, _) := rgb2hsl R G B in h == inject_Z k.
Proof.
  intros H. unfold rgb2hsl. rewrite (roundUp_Z k _ H). reflexivity.
Qed.

(** X14.  The hue of a tint or shade of a primary: with one channel [n]
    above the two others, both equal to [m], the hue is 0 when the red one
    is above, 120 for the green and 240 for the blue.  For the pure
    primaries, [m = 0], this holds in binary64 as well. *)
Theorem rgb2hsl_primary_hues (m n : Z) :
  (0 <= m < n)%Z -> (n <= 255)%Z ->
  (let '(h, _, _) := rgb2hsl n m m in h == 0) /\
  (let '(h, _, _) := rgb2hsl m n m in h == 120) /\
  (let '(h, _, _) := rgb2hsl m m n in h == 240) /\
  (let '(h, _, _) := F64.rgb2hsl (F64.of_Z n) 0 0 in
   (h =? 0)%float = true) /\
  (let '(h, _, _) := F64.rgb2hsl 0 (F64.of_Z n) 0 in
   (h =? 120)%float = true) /\
  (let '(h, _, _) := F64.rgb2hsl 0 0 (F64.of_Z n) in
   (h =? 240)%float = true).
Proof.
  intros Hm Hn.
  pose proof (channel_lt m n ltac:(lia)) as Hlt.
  set (lo := inject_Z m / 255) in *. set (hi := inject_Z n / 255) in *.
  assert (Hd : ~ hi - lo == 0) by lra.
  split; [| split; [| split]].
  - apply (rgb2hsl_hue_value n m m 0).
    destruct (rgb2hsl_hue_cases n m m hi lo) as (hue & Hh & Hc);
      fold lo hi; [apply max3_eq; lra | apply min3_eq; lra | lra |].
    fold lo hi in Hc.
    assert (E : hue == 0).
    { destruct Hc as [[_ E] | [[Hx _] | [Hx _]]];
        [| exfalso; apply Hx; reflexivity | exfalso; apply Hx; reflexivity].
      rewrite E. field. exact Hd. }
    destruct Hh as [Hh | [Hneg _]]; [| lra].
    rewrite Hh, E. reflexivity.
  - apply (rgb2hsl_hue_value m n m 120).
    destruct (rgb2hsl_hue_cases m n m hi lo) as (hue & Hh & Hc);
      fold lo hi; [apply max3_eq; lra | apply min3_eq; lra | lra |].
    fold lo hi in Hc.
    assert (E : hue == 120).
    { destruct Hc as [[Hx _] | [(_ & _ & E) | (_ & Hx & _)]];
        [exfalso; lra | | exfalso; apply Hx; reflexivity].
      rewrite E. field. exact Hd. }
    destruct Hh as [Hh | [Hneg _]]; [| lra].
    rewrite Hh, E. reflexivity.
  - apply (rgb2hsl_hue_value m m n 240).
    destruct (rgb2hsl_hue_cases m m n hi lo) as (hue & Hh & Hc);
      fold lo hi; [apply max3_eq; lra | apply min3_eq; lra | lra |].
    fold lo hi in Hc.
    assert (E : hue == 240).
    { destruct Hc as [[Hx _] | [(_ & Hx & _) | (_ & _ & E)]];
        [exfalso; lra | exfalso; lra |].
      rewrite E. field. exact Hd. }
    destruct Hh as [Hh | [Hneg _]]; [| lra].
    rewrite Hh, E. reflexivity.
  - assert (H : forallb
                  (fun n : Z =>
                     (let '(h, _, _) := F64.rgb2hsl (F64.of_Z n) 0 0 in
                      (h =? 0)%float) &&
                     (let '(h, _, _) := F64.rgb2hsl 0 (F64.of_Z n) 0 in
                      (h =? 120)%float) &&
                     (let '(h, _, _) := F64.rgb2hsl 0 0 (F64.of_Z n) in
                      (h =? 240)%float))
                  (seqZ 1 255) = true) by (vm_cast_no_check (eq_refl true)).
    apply (forallb_seqZ _ _ _ n) in H; [| lia]. cbv beta in H.
    apply andb_true_iff in H as [H H3]. apply andb_true_iff in H as [H1 H2].
    split; [exact H1 | split; [exact H2 | exact H3]].
Qed.

Lemma rgb2hsl_primary_hues_witness :
  (let '(h, _, _) := rgb2hsl 200 40 40 in h == 0) /\
  (let '(h, _, _) := rgb2hsl 40 200 40 in h == 120) /\
  (let '(h, _, _) := rgb2hsl 40 40 200 in h == 240) /\
  (let '(h, _, _) := F64.rgb2hsl (F64.of_Z 200) 0 0 in
   (h =? 0)%float = true) /\
  (let '(h, _, _) := F64.rgb2hsl 0 (F64.of_Z 200) 0 in
   (h =? 120)%float = true) /\
  (let '(h, _, _) := F64.rgb2hsl 0 0 (F64.of_Z 200) in
   (h =? 240)%float = true).
Proof. apply (rgb2hsl_primary_hues 40 200); lia. Defined.

(** X15.  A colour with a channel at 0, or with a channel at 255, is
    fully saturated, unless it is black or white: for channels in
    [0, 255] whose smallest is 0 and largest is not, or whose largest is
    255 and smallest is not, the saturation is 1. *)
Theorem rgb2hsl_full_saturation (R G B : Z) :
  (0 <= R <= 255)%Z -> (0 <= G <= 255)%Z -> (0 <= B <= 255)%Z ->
  (Z.min R (Z.min G B) = 0 /\ 0 < Z.max R (Z.max G B))%Z \/
  (Z.max R (Z.max G B) = 255 /\ Z.min R (Z.min G B) < 255)%Z ->
  let '(_, s, _) := rgb2hsl R G B in s == 1.
Proof.
  intros HR HG HB Hcase. unfold rgb2hsl.
  pose proof (channel_unit R HR) as Hr.
  pose proof (channel_unit G HG) as Hg.
  pose proof (channel_unit B HB) as Hb.
  assert (Hz : forall n : Z, n = 0%Z -> inject_Z n / 255 == 0)
    by (intros n ->; reflexivity).
  assert (Hf : forall n : Z, n = 255%Z -> inject_Z n / 255 == 1)
    by (intros n ->; reflexivity).
  assert (Hp : forall n : Z, (0 < n)%Z -> 0 < inject_Z n / 255).
  { intros n H. pose proof (channel_lt 0 n H) as H'.
    assert (E : inject_Z 0 / 255 == 0) by reflexivity.
    rewrite E in H'. exact H'. }
  assert (Hq : forall n : Z, (n < 255)%Z -> inject_Z n / 255 < 1).
  { intros n H. pose proof (channel_lt n 255 H) as H'.
    assert (E : inject_Z 255 / 255 == 1) by reflexivity.
    rewrite E in H'. exact H'. }
  assert (Es : rgb2hsl_saturation R G B == 1).
  { unfold rgb2hsl_saturation, rgb2hsl_lightness.
    set (r := inject_Z R / 255) in *.
    set (g := inject_Z G / 255) in *.
    set (b := inject_Z B / 255) in *.
    destruct (max3_bounds r g b) as (M1 & M2 & M3).
    destruct (min3_bounds r g b) as (m1 & m2 & m3).
    assert (MAX1 : max3 r g b <= 1) by (apply max3_le; lra).
    assert (MIN0 : 0 <= min3 r g b) by (apply min3_ge; lra).
    set (MAX := max3 r g b) in *. set (MIN := min3 r g b) in *.
    assert (Hext : (MIN == 0 /\ 0 < MAX) \/ (MAX == 1 /\ MIN < 1)).
    { destruct Hcase as [[Hmin Hmax] | [Hmax Hmin]]; [left | right].
      - split.
        + assert (H0 : R = 0%Z \/ G = 0%Z \/ B = 0%Z) by lia.
          destruct H0 as [H0 | [H0 | H0]]; apply Hz in H0;
            fold r g b in H0; lra.
        + assert (H0 : (0 < R \/ 0 < G \/ 0 < B)%Z) by lia.
          destruct H0 as [H0 | [H0 | H0]]; apply Hp in H0;
            fold r g b in H0; lra.
      - split.
        + assert (H0 : R = 255%Z \/ G = 255%Z \/ B = 255%Z) by lia.
          destruct H0 as [H0 | [H0 | H0]]; apply Hf in H0;
            fold r g b in H0; lra.
        + assert (H0 : (R < 255 \/ G < 255 \/ B < 255)%Z) by lia.
          destruct H0 as [H0 | [H0 | H0]]; apply Hq in H0;
            fold r g b in H0; lra. }
    assert (Hlt : MIN < MAX) by (destruct Hext as [[? ?] | [? ?]]; lra).
    destruct (Qeq_bool MAX 0) eqn:E0.
    { apply Qeq_bool_eq in E0. exfalso. lra. }
    destruct (Qeq_bool MIN 1) eqn:E1.
    { apply Qeq_bool_eq in E1. exfalso. lra. }
    cbn [orb].
    set (L := (MAX + MIN) * (1 # 2)).
    assert (Em : Qmin L (1 - L) == MAX - L).
    { destruct Hext as [[Hmin _] | [Hmax _]].
      - rewrite Q.min_l by (unfold L; lra). unfold L. lra.
      - rewrite Q.min_r by (unfold L; lra). unfold L. lra. }
    rewrite Em. field. unfold L. lra. }
  rewrite (roundUp_Z 100); [reflexivity |]. rewrite Es. reflexivity.
Qed.

Lemma rgb2hsl_full_saturation_witness :
  let '(_, s, _) := rgb2hsl 255 90 12 in s == 1.
Proof. apply (rgb2hsl_full_saturation 255 90 12); lia. Defined.

(** X16.  For channels in [0, 255], [rgb2hsl] never divides by zero: the
    divisor [MAX - MIN] of the hue is positive unless [MAX] is [MIN], and
    the divisor of the saturation is positive unless [MAX] is 0 or [MIN]
    is 1, the cases that the code sets apart. *)
Theorem rgb2hsl_divisors_positive (R G B : Z) :
  (0 <= R <= 255)%Z -> (0 <= G <= 255)%Z -> (0 <= B <= 255)%Z ->
  let r := inject_Z R / 255 in
  let g := inject_Z G / 255 in
  let b := inject_Z B / 255 in
  let MAX := max3 r g b in
  let MIN := min3 r g b in
  let lightness := rgb2hsl_lightness R G B in
  (Qeq_bool MAX MIN = false -> 0 < MAX - MIN) /\
  (Qeq_bool MAX 0 || Qeq_bool MIN 1 = false ->
   0 < Qmin lightness (1 - lightness)).
Proof.
  intros HR HG HB r g b MAX MIN lightness.
  pose proof (channel_unit R HR) as Hr.
  pose proof (channel_unit G HG) as Hg.
  pose proof (channel_unit B HB) as Hb.
  fold r g b in Hr, Hg, Hb.
  destruct (max3_bounds r g b) as (M1 & M2 & M3).
  destruct (min3_bounds r g b) as (m1 & m2 & m3).
  assert (MAX1 : max3 r g b <= 1) by (apply max3_le; lra).
  assert (MIN0 : 0 <= min3 r g b) by (apply min3_ge; lra).
  fold MAX MIN in M1, M2, M3, m1, m2, m3, MAX1, MIN0.
  split.
  - intros E. apply Qeq_bool_neq in E.
    destruct (Qlt_le_dec 0 (MAX - MIN)) as [H | H]; [exact H |].
    exfalso. apply E. lra.
  - intros E. apply orb_false_iff in E as [E0 E1].
    apply Qeq_bool_neq in E0, E1.
    assert (Hmax : 0 < MAX).
    { destruct (Qlt_le_dec 0 MAX) as [H | H]; [exact H |].
      exfalso. apply E0. lra. }
    assert (Hmin : MIN < 1).
    { destruct (Qlt_le_dec MIN 1) as [H | H]; [exact H |].
      exfalso. apply E1. lra. }
    subst lightness. unfold rgb2hsl_lightness. fold r g b MAX MIN.
    apply Q.min_glb_lt; lra.
Qed.

Lemma rgb2hsl_divisors_positive_witness :
  let r := inject_Z 200 / 255 in
  let g := inject_Z 120 / 255 in
  let b := inject_Z 77 / 255 in
  let MAX := max3 r g b in
  let MIN := min3 r g b in
  let lightness := rgb2hsl_lightness 200 120 77 in
  (Qeq_bool MAX MIN = false -> 0 < MAX - MIN) /\
  (Qeq_bool MAX 0 || Qeq_bool MIN 1 = false ->
   0 < Qmin lightness (1 - lightness)).
Proof. apply (rgb2hsl_divisors_positive 200 120 77); lia. Defined.

End RgbToHslProperties.

Section RasteriserFurther.
Local Open Scope Z_scope.

Variable atan2_deg : Z -> Z -> Q.
Variable p : WheelParams.
Variables outer inner : Z.

Lemma elem_of_render_stores (index v : Z) :
  (index, v) ∈ render_stores atan2_deg p outer inner ->
  exists x y : Z,
    in_square outer x y /\ in_ring outer inner x y /\
    pixel_index outer x y <= index < pixel_index outer x y + 4.
Proof.
  intros H. unfold render_stores in H.
  apply list_elem_of_bind in H as ([x y] & Hv & Hq).
  apply elem_of_pixel_stores in Hv as [Hring Hidx].
  apply elem_of_loop_offsets in Hq. eauto.
Qed.

(** X17.  A render never stores outside the image: every store of its
    trace addresses a byte of [0, 4 * (2 * outer)^2), so the array keeps
    its length and every byte from [4 * (2 * outer)^2] on keeps its
    value. *)
Theorem render_stores_in_image (pixels : list Z) :
  Forall (fun iv : Z * Z => 0 <= iv.1 < 2 * outer * (2 * outer) * 4)
         (render_stores atan2_deg p outer inner) /\
  length (render atan2_deg p outer inner pixels) = length pixels /\
  forall n : nat,
    2 * outer * (2 * outer) * 4 <= Z.of_nat n ->
    render atan2_deg p outer inner pixels !! n = pixels !! n.
Proof.
  assert (Hb : forall index v : Z,
            (index, v) ∈ render_stores atan2_deg p outer inner ->
            0 <= index < 2 * outer * (2 * outer) * 4).
  { intros index v H.
    apply elem_of_render_stores in H as (x & y & Hsq & _ & Hidx).
    pose proof (pixel_index_nonneg _ _ _ Hsq).
    pose proof (pixel_index_bound _ _ _ Hsq). lia. }
  split; [| split].
  - apply Forall_forall. intros [index v] H. cbn. eapply Hb, H.
  - rewrite render_stores_spec. apply apply_stores_length.
  - intros n Hn. rewrite render_stores_spec.
    apply apply_stores_frame. intros [v Hv]. apply Hb in Hv. lia.
Qed.

(** X18.  A ring without area draws nothing: when the outer radius is not
    positive, or its square is below the square of the inner radius (a
    negative thickness), a render leaves the array as it is. *)
Theorem render_empty_ring (pixels : list Z) :
  outer <= 0 \/ outer * outer < inner * inner ->
  render atan2_deg p outer inner pixels = pixels.
Proof.
  intros H. rewrite render_stores_spec.
  assert (E : render_stores atan2_deg p outer inner = []).
  { apply elem_of_nil_inv. intros [index v] Hv.
    apply elem_of_render_stores in Hv as (x & y & Hsq & Hring & _).
    unfold in_square in Hsq. unfold in_ring in Hring. lia. }
  rewrite E. reflexivity.
Qed.

Lemma fmap_bind_list {A B C : Type} (f : B -> C) (g : A -> list B)
    (l : list A) :
  f <$> (l ≫= g) = l ≫= (fun x => f <$> g x).
Proof.
  induction l as [| x l IH]; [reflexivity |].
  rewrite !bind_cons, fmap_app, IH. reflexivity.
Qed.

Lemma NoDup_loop_offsets : NoDup (loop_offsets outer).
Proof.
  unfold loop_offsets. apply NoDup_bind.
  - intros x1 x2 [x y] _ _ H1 H2.
    apply list_elem_of_fmap in H1 as (y1 & E1 & _).
    apply list_elem_of_fmap in H2 as (y2 & E2 & _).
    congruence.
  - intros x _. apply NoDup_fmap_2; [| apply NoDup_seqZ].
    intros y1 y2 E. congruence.
  - apply NoDup_seqZ.
Qed.

(** X19.  A render stores to each byte at most once: the indices of the
    stores of its trace are all different. *)
Theorem render_stores_once :
  NoDup ((render_stores atan2_deg p outer inner).*1).
Proof.
  unfold render_stores. rewrite fmap_bind_list. apply NoDup_bind.
  - intros [x1 y1] [x2 y2] index H1 H2 Hi1 Hi2.
    apply elem_of_loop_offsets in H1, H2.
    apply list_elem_of_fmap in Hi1 as ([i1 v1] & E1 & Hv1).
    apply list_elem_of_fmap in Hi2 as ([i2 v2] & E2 & Hv2).
    cbn in E1, E2. subst i1 i2.
    apply elem_of_pixel_stores in Hv1 as [_ Hr1].
    apply elem_of_pixel_stores in Hv2 as [_ Hr2].
    destruct (pixel_index_disjoint outer x1 y1 x2 y2 index) as [-> ->];
      auto.
  - intros [x y] _. unfold pixel_stores.
    destruct (outside_ring outer inner x y); [constructor |].
    destruct (pixel_rgb atan2_deg p x y) as [[r g] b]. cbn.
    repeat (apply NoDup_cons; split;
            [rewrite ?elem_of_cons, elem_of_nil; lia |]).
    constructor.
  - apply NoDup_loop_offsets.
Qed.

(** X20.  Rendering twice is rendering once: a second render of the same
    wheel over the result of the first changes no byte. *)
Theorem render_idempotent (pixels : list Z) :
  render atan2_deg p outer inner (render atan2_deg p outer inner pixels) =
  render atan2_deg p outer inner pixels.
Proof.
  apply list_eq. intros n.
  set (once := render atan2_deg p outer inner pixels).
  assert (Hlen : length once = length pixels).
  { unfold once. rewrite render_stores_spec. apply apply_stores_length. }
  destruct (decide (Z.of_nat n ∈ (render_stores atan2_deg p outer inner).*1))
    as [Hin | Hnot].
  - apply list_elem_of_fmap in Hin as ([index v] & E & Hv). cbn in E. subst.
    apply elem_of_render_stores in Hv as (x & y & Hsq & Hring & Hidx).
    destruct (decide (n < length pixels)%nat) as [Hlt | Hge].
    + transitivity (pixel_bytes atan2_deg p x y
                      !! (n - Z.to_nat (pixel_index outer x y))%nat).
      * rewrite render_loop_offsets.
        apply render_in_order_value;
          [apply loop_offsets_in_square | exact Hsq | exact Hring
          | now apply elem_of_loop_offsets | exact Hidx | lia].
      * symmetry. unfold once. rewrite render_loop_offsets.
        apply render_in_order_value;
          [apply loop_offsets_in_square | exact Hsq | exact Hring
          | now apply elem_of_loop_offsets | exact Hidx | exact Hlt].
    + rewrite !lookup_ge_None_2; [reflexivity | lia |].
      rewrite render_stores_spec, apply_stores_length. lia.
  - rewrite (render_stores_spec _ _ _ _ once).
    apply apply_stores_frame. intros [v Hv]. apply Hnot.
    apply list_elem_of_fmap. exists (Z.of_nat n, v). split; [reflexivity | exact Hv].
Qed.

End RasteriserFurther.

Section RasteriserFurtherWitnesses.
Local Open Scope Z_scope.

Lemma render_empty_ring_witness :
  render atan2_octant example_wheel 3 5 (replicate 144 7) = replicate 144 7.
Proof.
  apply (render_empty_ring atan2_octant example_wheel 3 5 (replicate 144 7)).
  right. lia.
Defined.


End RasteriserFurtherWitnesses.

Section PixelHue.
Local Open Scope Q_scope.

Variable atan2_deg : Z -> Z -> Q.

(** X6.  The rasteriser hands [getHue] an angle of [0, 360): with
    [atan2] within [-180, 180] degrees and [redStart] in [0, 360], the hue
    of every pixel is in [0, 360), whatever the style. *)
Theorem pixel_hue_in_range (p : WheelParams) (x y : Z) :
  -180 <= atan2_deg (- y) x <= 180 -> 0 <= redStart p <= 360 ->
  let theta := js_rem (360 + atan2_deg (- y) x) 360 in
  0 <= theta < 360 /\
  0 <= getHue (redStart p) theta (style p) < 360.
Proof.
  intros Ha Hr theta.
  assert (Ht : 0 <= theta < 360) by (apply js_rem_range; lra).
  split; [exact Ht |]. apply getHue_range; lra.
Qed.

End PixelHue.

Section FurtherWitnesses.
Local Open Scope Q_scope.

Lemma pixel_hue_in_range_witness :
  let theta := js_rem (360 + atan2_octant (- -3) 12) 360 in
  0 <= theta < 360 /\
  0 <= getHue (redStart example_wheel) theta (style example_wheel) < 360.
Proof.
  apply (pixel_hue_in_range atan2_octant example_wheel 12 (-3)).
  - vm_compute. split; discriminate.
  - vm_compute. split; discriminate.
Defined.

Lemma getHue_range_witness : 0 <= getHue 90 200 1 < 360.
Proof. apply (getHue_range 90 200 1); lra. Defined.

End FurtherWitnesses.
